(** * Taskboard: the task-list state store of [src/app/page.js] and the
      delete button of [src/components/TaskList.js].

    The page keeps three pieces of React state ([tasks], [newTask],
    [nextId]) and mirrors [tasks] into the browser's [localStorage] slot
    ['tasks'].  Each event handler runs to completion on the state of the
    render it closes over, so a handler is a function from the state before
    the event to the state after it.

    Numbers: the identifiers are JavaScript numbers, that is binary64
    floating-point values.  The page only ever holds integers in them
    ([1], [max + 1], [nextId + 1], the ids of the persisted records), so a
    number is modelled as the integer it denotes, in [Z], and [+] as
    binary64 addition: the exact sum rounded to the nearest number, ties to
    even.  Up to 2^53 that is the exact sum; at 2^53 adding 1 changes
    nothing. *)

From stdpp Require Import base numbers list strings sorting pretty.

Local Open Scope Z_scope.

(** ** Data model *)

(** The record built at page.js:79-83. *)
Module Task.
Record t : Type := mk { id : Z; title : string; description : string }.
End Task.

(** What [JSON.parse] can return for the slot.  Arrays are arrays of task
    records (the persisted layout), numbers are integers, and [JObj] stands
    for any other object. *)
Inductive js_value : Type :=
| JNull
| JBool (b : bool)
| JNum (n : Z)
| JStr (s : string)
| JArr (l : list Task.t)
| JObj.

(** A text held by [localStorage], identified by what [JSON.parse] makes of
    it: either it is not JSON at all, or it denotes a value. *)
Inductive text : Type :=
| NotJSON
| JSONof (v : js_value).

Inductive js_error : Type := SyntaxError | TypeError.

(** React state of [Home] (page.js:51-54) together with the storage slot. *)
Record State : Type := mkState {
  tasks : list Task.t;
  newTask : string;
  nextId : Z;
  localStorage : option text
}.

(** An effect or handler either completes or throws. *)
Inductive outcome : Type :=
| Done (s : State)
| Threw (e : js_error).

(** ** Built-ins used by the page *)

(** *** Numbers *)

(** The exponent of the unit in the last place of binary64 at the integer
    [z]: 0 while [|z| < 2^53], where every integer is a number, and one more
    for each further binade. *)
Definition ulp_exp (z : Z) : Z := Z.max 0 (Z.log2 (Z.abs z) - 52).

(** The binary64 number nearest to the integer [z], ties to the even
    significand. *)
Definition round_binary64 (z : Z) : Z :=
  let u := 2 ^ ulp_exp z in
  let q := z / u in
  let r := z mod u in
  if 2 * r <? u then q * u
  else if u <? 2 * r then (q + 1) * u
  else if Z.even q then q * u else (q + 1) * u.

(** [a + b] on integer-valued numbers: the exact sum, rounded.  The page
    only ever adds 1, so the sum stays finite. *)
Definition js_add (a b : Z) : Z := round_binary64 (a + b).

(** The integers that are binary64 numbers. *)
Definition js_integer (z : Z) : Prop := round_binary64 z = z.

#[global] Arguments ulp_exp : simpl never.
#[global] Arguments round_binary64 : simpl never.
#[global] Arguments js_add : simpl never.

(** *** JSON, truthiness, arrays *)

(** [JSON.parse(localStorage.getItem('tasks'))]: a missing item is [null],
    which [JSON.parse] reads as the text [null]. *)
Definition JSON_parse (item : option text) : js_value + js_error :=
  match item with
  | None => inl JNull
  | Some NotJSON => inr SyntaxError
  | Some (JSONof v) => inl v
  end.

(** [JSON.stringify(l)] for an array of task records: the text that parses
    back to [l]. *)
Definition JSON_stringify (l : list Task.t) : text := JSONof (JArr l).

(** JavaScript truthiness, as used by [||]. *)
Definition truthy (v : js_value) : bool :=
  match v with
  | JNull => false
  | JBool b => b
  | JNum n => negb (n =? 0)
  | JStr s => negb (String.eqb s "")
  | JArr _ => true
  | JObj => true
  end.

Definition js_or (v d : js_value) : js_value := if truthy v then v else d.

(** [Array.prototype.filter] with the callback's index argument. *)
Fixpoint filter_from {A : Type} (p : A → Z → bool) (i : Z) (l : list A) : list A :=
  match l with
  | [] => []
  | x :: l' => if p x i then x :: filter_from p (i + 1) l' else filter_from p (i + 1) l'
  end.

Definition js_filter {A : Type} (p : A → Z → bool) (l : list A) : list A :=
  filter_from p 0 l.

(** [Array.prototype.reduce] with an initial value. *)
Definition js_reduce {A B : Type} (f : B → A → B) (l : list A) (init : B) : B :=
  fold_left f l init.

(** ** The page *)

(** [useState([])], [useState('')], [useState(1)] on a fresh mount. *)
Definition initial (slot : option text) : State :=
  {| tasks := []; newTask := ""; nextId := 1; localStorage := slot |}.

(** The hydration effect, page.js:56-61. *)
Definition hydrate (s : State) : outcome :=
  match JSON_parse (localStorage s) with
  | inr e => Threw e
  | inl parsed =>
    match js_or parsed (JArr []) with
    | JArr savedTasks =>
      let maxId := js_reduce (λ max task, Z.max max (Task.id task)) savedTasks 0 in
      Done {| tasks := savedTasks;
              newTask := newTask s;
              nextId := js_add maxId 1;
              localStorage := localStorage s |}
    | _ => Threw TypeError (* [savedTasks.reduce] is not a function *)
    end
  end.

(** The input's [onChange], page.js:134. *)
Definition setNewTesk (v : string) (s : State) : State :=
  {| tasks := tasks s; newTask := v; nextId := nextId s;
     localStorage := localStorage s |}.

(** [addTask], page.js:75-92. *)
Definition addTask (s : State) : State :=
  let newTaskObj := Task.mk (nextId s) (newTask s) "" in
  let updatedTasks := tasks s ++ [newTaskObj] in
  {| tasks := updatedTasks;
     newTask := "";
     nextId := js_add (nextId s) 1;
     localStorage := Some (JSON_stringify updatedTasks) |}.

(** [handleDelete], page.js:94-98. *)
Definition handleDelete (index : Z) (s : State) : State :=
  let newTasks := js_filter (λ _ i, negb (i =? index)) (tasks s) in
  {| tasks := newTasks;
     newTask := newTask s;
     nextId := nextId s;
     localStorage := Some (JSON_stringify newTasks) |}.

(** The Delete button of a row, TaskList.js:54-59: [onDelete(task.id)]. *)
Definition TaskList_onClick (onDelete : Z → State → State) (task : Task.t)
  : State → State :=
  onDelete (Task.id task).

(** [<TaskList tasks={tasks} onDelete={handleDelete} />], page.js:154:
    clicking Delete on the row at position [row] of the rendered list. *)
Definition click_delete (row : nat) (s : State) : State :=
  match tasks s !! row with
  | Some task => TaskList_onClick handleDelete task s
  | None => s
  end.

(** ** Operations of the store, as the specification names them *)

(** A page load: fresh React state, then the hydration effect. *)
Definition Hydrate (s : State) : outcome := hydrate (initial (localStorage s)).

(** Typing a title and pressing Add. *)
Definition AddTask (t : string) (s : State) : State := addTask (setNewTesk t s).

(** The delete entry point with its argument. *)
Definition DeleteTask (arg : Z) (s : State) : State := handleDelete arg s.

Inductive event : Type :=
| EvHydrate
| EvAdd (t : string)
| EvDelete (arg : Z).

Definition step (ev : event) (s : State) : outcome :=
  match ev with
  | EvHydrate => Hydrate s
  | EvAdd t => Done (AddTask t s)
  | EvDelete arg => Done (DeleteTask arg s)
  end.

(** The identifiers an event hands out: those of the records that an Add
    leaves in the list after the ones that were there. *)
Definition assigns (ev : event) (s : State) : list Z :=
  match ev with
  | EvAdd t => Task.id <$> drop (length (tasks s)) (tasks (AddTask t s))
  | _ => []
  end.

(** Running a sequence of events; an uncaught error ends the session. *)
Fixpoint run (evs : list event) (s : State) : outcome :=
  match evs with
  | [] => Done s
  | ev :: evs' =>
    match step ev s with
    | Done s' => run evs' s'
    | Threw e => Threw e
    end
  end.

(** The identifiers handed out along a run, in order. *)
Fixpoint assigned_ids (evs : list event) (s : State) : list Z :=
  match evs with
  | [] => []
  | ev :: evs' =>
    assigns ev s ++
    match step ev s with
    | Done s' => assigned_ids evs' s'
    | Threw _ => []
    end
  end.

Definition is_hydrate (ev : event) : bool :=
  match ev with EvHydrate => true | _ => false end.

(** The number of Adds in a sequence of events. *)
Fixpoint adds (evs : list event) : nat :=
  match evs with
  | [] => 0
  | EvAdd _ :: evs' => S (adds evs')
  | _ :: evs' => adds evs'
  end.

(** A session: events between two page loads. *)
Definition in_session (evs : list event) : Prop :=
  Forall (λ ev, is_hydrate ev = false) evs.

(** States the page can be in: a fresh mount over any slot content, closed
    under the three operations. *)
Inductive reachable : State → Prop :=
| reach_initial slot : reachable (initial slot)
| reach_step ev s s' : reachable s → step ev s = Done s' → reachable s'.

Definition ids (l : list Task.t) : list Z := Task.id <$> l.

(** Every identifier in the list is below the counter. *)
Definition ids_below_counter (s : State) : Prop :=
  Forall (λ task, Task.id task < nextId s) (tasks s).

(** ** Names used in the statements *)

(** The callback of [handleDelete]'s filter: keep every position but [k]. *)
Definition keep_other {A : Type} (k : Z) : A → Z → bool :=
  λ _ i, negb (i =? k).

(** The callback of the hydration's reduce. *)
Definition max_step (max : Z) (task : Task.t) : Z := Z.max max (Task.id task).

(** What the hydration's reduce computes from a list. *)
Definition max_id (l : list Task.t) : Z := js_reduce max_step l 0.

(** [m] is the largest identifier of [l], with 0 when none is larger. *)
Definition max_id_or_0 (m : Z) (l : list Task.t) : Prop :=
  0 ≤ m ∧ Forall (λ task, Task.id task ≤ m) l ∧ (m = 0 ∨ m ∈ ids l).

(** A sequence of [AddTask] calls, in order. *)
Definition add_all (titles : list string) (s : State) : State :=
  fold_left (λ s t, AddTask t s) titles s.

(** The records a sequence of calls creates from counter [c], while the
    counter counts exactly. *)
Definition created_from (c : Z) (titles : list string) : list Task.t :=
  imap (λ n t, Task.mk (c + Z.of_nat n) t "") titles.

(** The list after typing "A", Add, typing "B", Add on an empty board. *)
Definition board_AB : State := AddTask "B" (AddTask "A" (initial None)).

Definition board_ABC : State := AddTask "C" board_AB.

(** A slot holding one record with the given identifier. *)
Definition slot_with_id (i : Z) : option text :=
  Some (JSON_stringify [Task.mk i "x" ""]).

(** What every reachable state satisfies: the counter is a number, at least
    1, and not below what a hydration of the current list would compute. *)
Definition counter_inv (s : State) : Prop :=
  1 ≤ nextId s
  ∧ js_integer (nextId s)
  ∧ js_add (max_id (tasks s)) 1 ≤ nextId s.

(** ** Rendering *)

(** One [<li>] of the list, TaskList.js:32-60: the React key, the link's
    target and text, and the Delete button's handler. *)
Record Row : Type := mkRow {
  key : Z;
  href : string;
  label : string;
  onClick : State → State
}.

(** [TaskList], TaskList.js:18-64: one row per task, in list order.
    [Number_toString] stands for the conversion of a number to text that the
    template literal [`/task/${task.id}`] performs. *)
Definition TaskList (Number_toString : Z → string)
    (tasks : list Task.t) (onDelete : Z → State → State) : list Row :=
  (λ task, {| key := Task.id task;
              href := String.app "/task/" (Number_toString (Task.id task));
              label := Task.title task;
              onClick := TaskList_onClick onDelete task |}) <$> tasks.

(** What [Home] returns, page.js:109-156: the controlled input, the Add
    button and the task list. *)
Record View : Type := mkView {
  input_value : string;
  input_onChange : string → State → State;
  add_onClick : State → State;
  rows : list Row
}.

Definition Home (Number_toString : Z → string) (s : State) : View :=
  {| input_value := newTask s;
     input_onChange := setNewTesk;
     add_onClick := addTask;
     rows := TaskList Number_toString (tasks s) handleDelete |}.

(** ** Shapes of a persisted list *)

(** Identifiers that are positive and grow along the list, as the page
    itself produces them while the counter counts exactly. *)
Definition increasing_ids (l : list Task.t) : Prop :=
  Forall (λ task, 0 < Task.id task) l ∧ StronglySorted Z.lt (ids l).

(** A property of the slot that only constrains an array of records. *)
Definition slot_array (P : list Task.t → Prop) (slot : option text) : Prop :=
  match slot with
  | Some (JSONof (JArr l)) => P l
  | _ => True
  end.

Definition unique_ids (l : list Task.t) : Prop := NoDup (ids l).

(** The identifiers below 2^53 are pairwise distinct. *)
Definition unique_safe_ids (l : list Task.t) : Prop :=
  NoDup (filter (λ i, i < 2 ^ 53) (ids l)).

(** Growing, or at the point where the counter no longer advances. *)
Definition lt_or_saturated (a b : Z) : Prop := a < b ∨ 2 ^ 53 ≤ b.

Definition nearly_increasing_ids (l : list Task.t) : Prop :=
  Forall (λ task, 0 < Task.id task) l
  ∧ StronglySorted lt_or_saturated (ids l).

Definition unique_state (s : State) : Prop :=
  unique_safe_ids (tasks s)
  ∧ slot_array unique_safe_ids (localStorage s).

Definition increasing_state (s : State) : Prop :=
  nearly_increasing_ids (tasks s)
  ∧ slot_array nearly_increasing_ids (localStorage s).

(** ** Filtering by position *)

Section FilterByIndex.
Context {A : Type}.
Implicit Types (l : list A) (i k : Z).

(** Once the running index is past [k], nothing is dropped. *)
Lemma filter_from_past l i k : k < i → filter_from (keep_other k) i l = l.
Proof.
  revert i. induction l as [|x l IH]; intros i Hlt; simpl; [done|].
  unfold keep_other at 1.
  destruct (Z.eqb_spec i k) as [->|_]; [lia|]. simpl.
  f_equal. apply IH. lia.
Qed.

(** Before that, exactly the element at distance [k - i] is dropped. *)
Lemma filter_from_delete l i k :
  i ≤ k → filter_from (keep_other k) i l = delete (Z.to_nat (k - i)) l.
Proof.
  revert i. induction l as [|x l IH]; intros i Hle; simpl; [done|].
  unfold keep_other at 1.
  destruct (Z.eqb_spec i k) as [->|Hne]; simpl.
  - rewrite Z.sub_diag. simpl. apply filter_from_past. lia.
  - rewrite IH by lia.
    replace (Z.to_nat (k - i)) with (S (Z.to_nat (k - (i + 1)))) by lia.
    done.
Qed.

Lemma js_filter_delete l k :
  0 ≤ k → js_filter (keep_other k) l = delete (Z.to_nat k) l.
Proof.
  intros Hk. unfold js_filter. rewrite filter_from_delete by done.
  by rewrite Z.sub_0_r.
Qed.

Lemma js_filter_negative l k : k < 0 → js_filter (keep_other k) l = l.
Proof. intros Hk. by apply filter_from_past. Qed.

Lemma js_filter_beyond l k :
  Z.of_nat (length l) ≤ k → js_filter (keep_other k) l = l.
Proof.
  intros Hk. rewrite js_filter_delete by lia.
  rewrite delete_take_drop, take_ge, drop_ge by lia.
  apply app_nil_r.
Qed.

(** The result is always a sublist of the input. *)
Lemma filter_from_sublist (p : A → Z → bool) l i :
  sublist (filter_from p i l) l.
Proof.
  revert i. induction l as [|x l IH]; intros i; simpl; [done|].
  destruct (p x i); [by apply sublist_skip | by apply sublist_cons].
Qed.
End FilterByIndex.

(** ** Deleting *)

Lemma handleDelete_tasks index s :
  tasks (handleDelete index s) = js_filter (keep_other index) (tasks s).
Proof. reflexivity. Qed.

Lemma handleDelete_in_range index s :
  0 ≤ index →
  tasks (handleDelete index s) = delete (Z.to_nat index) (tasks s).
Proof. intros. rewrite handleDelete_tasks. by apply js_filter_delete. Qed.

Lemma handleDelete_out_of_range index s :
  index < 0 ∨ Z.of_nat (length (tasks s)) ≤ index →
  tasks (handleDelete index s) = tasks s.
Proof.
  rewrite handleDelete_tasks.
  intros [Hneg|Hbig]; [by apply js_filter_negative | by apply js_filter_beyond].
Qed.

Lemma handleDelete_sublist index s :
  sublist (tasks (handleDelete index s)) (tasks s).
Proof. rewrite handleDelete_tasks. apply filter_from_sublist. Qed.

(** C1 (the code departs from it).  The specification has [DeleteTask(1)]
    on [[{id:1,title:"A"},{id:2,title:"B"}]] leave [[{id:2,title:"B"}]].
    The handler compares its argument with positions, so it removes the
    record at position 1, which is B, and A stays; the Delete button of A's
    row does the same. *)
Theorem DeleteTask_scenario_removes_position :
  tasks board_AB = [Task.mk 1 "A" ""; Task.mk 2 "B" ""]
  ∧ tasks (DeleteTask 1 board_AB) = [Task.mk 1 "A" ""]
  ∧ tasks (click_delete 0 board_AB) = [Task.mk 1 "A" ""]
  ∧ tasks (DeleteTask 1 board_AB) ≠ [Task.mk 2 "B" ""].
Proof. repeat split; try reflexivity. discriminate. Qed.

(** C2.  Called with a position [k] inside the list, the delete handler
    removes the element at position [k], whatever its [id]; the Delete
    button of a row passes that row's [id], so a click removes the record at
    the position equal to the clicked task's id, and nothing when that
    position is outside the list. *)
Theorem handleDelete_removes_by_position s k row task :
  0 ≤ k < Z.of_nat (length (tasks s)) →
  tasks s !! row = Some task →
  tasks (handleDelete k s) = take (Z.to_nat k) (tasks s) ++ drop (S (Z.to_nat k)) (tasks s)
  ∧ length (tasks (handleDelete k s)) = pred (length (tasks s))
  ∧ click_delete row s = handleDelete (Task.id task) s
  ∧ (Task.id task = k →
     tasks (click_delete row s) = delete (Z.to_nat k) (tasks s))
  ∧ (Task.id task < 0 ∨ Z.of_nat (length (tasks s)) ≤ Task.id task →
     tasks (click_delete row s) = tasks s).
Proof.
  intros Hk Hrow.
  assert (Hclick : click_delete row s = handleDelete (Task.id task) s).
  { unfold click_delete. by rewrite Hrow. }
  split_and!.
  - rewrite handleDelete_in_range by lia. apply delete_take_drop.
  - rewrite handleDelete_in_range by lia.
    rewrite length_delete; [lia|]. apply lookup_lt_is_Some. lia.
  - done.
  - intros Hid. rewrite Hclick, Hid. apply handleDelete_in_range. lia.
  - intros Hout. rewrite Hclick. by apply handleDelete_out_of_range.
Qed.

Lemma handleDelete_removes_by_position_witness :
  tasks (handleDelete 1 board_AB) = [Task.mk 1 "A" ""]
  ∧ click_delete 0 board_AB = handleDelete 1 board_AB.
Proof.
  destruct (handleDelete_removes_by_position board_AB 1 0%nat (Task.mk 1 "A" ""))
    as (Htasks & _ & Hclick & _).
  - simpl. lia.
  - reflexivity.
  - split; [exact Htasks | exact Hclick].
Defined.

(** C3 (the code departs from it).  The specification has a second
    [DeleteTask(id)] change nothing.  The handler removes by position, so on
    a three-record board a second [DeleteTask(1)] removes the record that
    moved into position 1. *)
Theorem DeleteTask_twice_removes_two :
  tasks board_ABC = [Task.mk 1 "A" ""; Task.mk 2 "B" ""; Task.mk 3 "C" ""]
  ∧ tasks (DeleteTask 1 board_ABC) = [Task.mk 1 "A" ""; Task.mk 3 "C" ""]
  ∧ tasks (DeleteTask 1 (DeleteTask 1 board_ABC)) = [Task.mk 1 "A" ""]
  ∧ DeleteTask 1 (DeleteTask 1 board_ABC) ≠ DeleteTask 1 board_ABC.
Proof. repeat split; try reflexivity. discriminate. Qed.

(** C9.  Whatever the list and the argument, the delete handler stores the
    list it computed, also when that list is the one it started from. *)
Theorem handleDelete_always_persists index s :
  localStorage (handleDelete index s)
    = Some (JSON_stringify (tasks (handleDelete index s)))
  ∧ (tasks (handleDelete index s) = tasks s →
     localStorage (handleDelete index s) = Some (JSON_stringify (tasks s))).
Proof.
  split; [reflexivity|].
  intros <-. reflexivity.
Qed.

(** A delete that removes nothing replaces a stale slot content. *)
Lemma handleDelete_always_persists_witness :
  let s := mkState [Task.mk 1 "A" ""] "" 2 None in
  tasks (handleDelete 5 s) = tasks s
  ∧ localStorage (handleDelete 5 s) = Some (JSON_stringify [Task.mk 1 "A" ""]).
Proof.
  intros s. split; [reflexivity|].
  apply (handleDelete_always_persists 5 s). reflexivity.
Defined.


(** ** Binary64 addition on integers *)

Lemma ulp_exp_nonneg z : 0 ≤ ulp_exp z.
Proof. unfold ulp_exp. lia. Qed.

Lemma ulp_exp_small z : Z.abs z < 2 ^ 53 → ulp_exp z = 0.
Proof.
  intros Hz. unfold ulp_exp.
  destruct (decide (Z.abs z = 0)) as [->|Hne]; [reflexivity|].
  assert (Z.log2 (Z.abs z) < 53) by (apply Z.log2_lt_pow2; lia).
  lia.
Qed.

Lemma round_ulp_0 z : ulp_exp z = 0 → round_binary64 z = z.
Proof.
  intros He. unfold round_binary64. rewrite He. simpl (2 ^ 0).
  rewrite Z.div_1_r, Z.mod_1_r. simpl. lia.
Qed.

Lemma round_small z : Z.abs z ≤ 2 ^ 53 → round_binary64 z = z.
Proof.
  intros Hz. destruct (decide (Z.abs z = 2 ^ 53)) as [Heq|Hne].
  - destruct (Z.abs_eq_or_opp z) as [H|H]; rewrite H in Heq.
    + subst z. reflexivity.
    + replace z with (- 2 ^ 53) by lia. reflexivity.
  - apply round_ulp_0, ulp_exp_small. lia.
Qed.

Lemma ulp_exp_mono z1 z2 : 0 ≤ z1 ≤ z2 → ulp_exp z1 ≤ ulp_exp z2.
Proof.
  intros Hz. unfold ulp_exp.
  rewrite !Z.abs_eq by lia.
  pose proof (Z.log2_le_mono z1 z2). lia.
Qed.

(** Between the two multiples of the unit that surround [z]. *)
Lemma round_between z :
  let u := 2 ^ ulp_exp z in
  z / u * u ≤ round_binary64 z ≤ (z / u + 1) * u.
Proof.
  intros u. pose proof (ulp_exp_nonneg z).
  assert (0 < u) by (apply Z.pow_pos_nonneg; lia).
  unfold round_binary64. fold u.
  repeat case_match; nia.
Qed.

(** In a binade above 2^53 the quotient by the unit has 53 bits. *)
Lemma ulp_quotient z :
  0 ≤ z → 0 < ulp_exp z →
  2 ^ 52 ≤ z / 2 ^ ulp_exp z < 2 ^ 53
  ∧ ulp_exp z = Z.log2 z - 52.
Proof.
  intros Hz He. unfold ulp_exp in *. rewrite Z.abs_eq in * by lia.
  assert (Hlog : 52 < Z.log2 z) by lia.
  assert (0 < z) by (destruct (decide (z = 0)) as [->|]; [simpl in Hlog; lia|lia]).
  rewrite Z.max_r by lia.
  destruct (Z.log2_spec z) as [Hlo Hhi]; [lia|].
  set (e := Z.log2 z - 52) in *.
  assert (0 < 2 ^ e) by (apply Z.pow_pos_nonneg; lia).
  replace (Z.log2 z) with (52 + e) in Hlo by lia.
  replace (Z.succ (Z.log2 z)) with (53 + e) in Hhi by lia.
  rewrite Z.pow_add_r in Hlo, Hhi by lia.
  split; [|done]. split.
  - apply Z.div_le_lower_bound; lia.
  - apply Z.div_lt_upper_bound; lia.
Qed.

Lemma round_upper z :
  0 ≤ z → round_binary64 z ≤ 2 ^ (53 + ulp_exp z).
Proof.
  intros Hz. pose proof (ulp_exp_nonneg z) as He.
  destruct (decide (ulp_exp z = 0)) as [H0|Hpos].
  - rewrite round_ulp_0 by done. rewrite H0.
    unfold ulp_exp in H0. rewrite Z.abs_eq in H0 by lia.
    destruct (decide (z = 0)) as [->|]; [done|].
    assert (z < 2 ^ 53) by (apply Z.log2_lt_pow2; lia). simpl. lia.
  - destruct (ulp_quotient z) as [[_ Hq] _]; [lia..|].
    pose proof (round_between z) as [_ Hup]. cbv zeta in Hup.
    rewrite Z.pow_add_r by lia.
    assert (0 < 2 ^ ulp_exp z) by (apply Z.pow_pos_nonneg; lia).
    nia.
Qed.

Lemma round_lower z :
  0 ≤ z → 0 < ulp_exp z → 2 ^ (52 + ulp_exp z) ≤ round_binary64 z.
Proof.
  intros Hz He.
  destruct (ulp_quotient z) as [[Hq _] _]; [lia..|].
  pose proof (round_between z) as [Hlo _]. cbv zeta in Hlo.
  rewrite Z.pow_add_r by lia.
  assert (0 < 2 ^ ulp_exp z) by (apply Z.pow_pos_nonneg; lia).
  nia.
Qed.

Lemma round_mono z1 z2 :
  0 ≤ z1 ≤ z2 → round_binary64 z1 ≤ round_binary64 z2.
Proof.
  intros Hz. pose proof (ulp_exp_mono z1 z2 Hz) as He.
  pose proof (ulp_exp_nonneg z1) as He1.
  destruct (decide (ulp_exp z1 = ulp_exp z2)) as [Heq|Hne].
  - unfold round_binary64. rewrite <- Heq.
    set (u := 2 ^ ulp_exp z1).
    assert (0 < u) by (apply Z.pow_pos_nonneg; lia).
    pose proof (Z.div_mod z1 u ltac:(lia)) as Hd1.
    pose proof (Z.div_mod z2 u ltac:(lia)) as Hd2.
    pose proof (Z.mod_pos_bound z1 u ltac:(lia)) as Hr1.
    pose proof (Z.mod_pos_bound z2 u ltac:(lia)) as Hr2.
    assert (z1 / u ≤ z2 / u) as Hq by (apply Z.div_le_mono; lia).
    destruct (decide (z1 / u = z2 / u)) as [Hqq|Hqlt].
    + rewrite <- Hqq in *. repeat case_match; nia.
    + repeat case_match; nia.
  - etrans; [apply round_upper; lia|].
    etrans; [|apply round_lower; lia].
    apply Z.pow_le_mono_r; lia.
Qed.

(** A 53-bit integer scaled by a power of two is a binary64 number. *)
Lemma round_scaled m k :
  2 ^ 52 ≤ m < 2 ^ 53 → 0 ≤ k → round_binary64 (m * 2 ^ k) = m * 2 ^ k.
Proof.
  intros Hm Hk.
  assert (0 < 2 ^ k) by (apply Z.pow_pos_nonneg; lia).
  assert (Z.log2 m = 52) as Hlog by (apply Z.log2_unique; lia).
  assert (ulp_exp (m * 2 ^ k) = k) as He.
  { unfold ulp_exp. rewrite Z.abs_eq by nia.
    rewrite Z.log2_mul_pow2 by lia. lia. }
  unfold round_binary64. rewrite He.
  rewrite Z.div_mul, Z.mod_mul by lia.
  destruct (Z.ltb_spec (2 * 0) (2 ^ k)); [done|lia].
Qed.

Lemma round_idem z : 0 ≤ z → js_integer (round_binary64 z).
Proof.
  intros Hz. unfold js_integer.
  destruct (decide (ulp_exp z = 0)) as [H0|Hpos].
  - rewrite (round_ulp_0 z H0). exact (round_ulp_0 z H0).
  - pose proof (ulp_exp_nonneg z).
    destruct (ulp_quotient z) as [Hq _]; [lia..|].
    set (u := 2 ^ ulp_exp z) in *.
    assert (round_binary64 z = z / u * u ∨ round_binary64 z = (z / u + 1) * u)
      as [->| ->].
    { unfold round_binary64. fold u. repeat case_match; auto. }
    + apply round_scaled; lia.
    + destruct (decide (z / u + 1 = 2 ^ 53)) as [->|Hlt].
      * unfold u. rewrite <- Z.pow_add_r by lia.
        replace (53 + ulp_exp z) with (52 + (ulp_exp z + 1)) by lia.
        rewrite Z.pow_add_r by lia. apply round_scaled; lia.
      * apply round_scaled; lia.
Qed.

Lemma js_integer_le_succ z : 0 ≤ z → js_integer z → z ≤ js_add z 1.
Proof.
  intros Hz Hint. unfold js_add, js_integer in *. rewrite <- Hint at 1.
  apply round_mono. lia.
Qed.

Lemma js_add_1_exact z : - 2 ^ 53 ≤ z < 2 ^ 53 → js_add z 1 = z + 1.
Proof. intros Hz. apply round_small. lia. Qed.

Lemma js_add_1_saturated z : 0 ≤ z → 2 ^ 53 ≤ z + 1 → 2 ^ 53 ≤ js_add z 1.
Proof.
  intros Hz Hbig. unfold js_add.
  rewrite <- (round_small (2 ^ 53)) by lia.
  apply round_mono. lia.
Qed.

Lemma js_add_1_ge_1 z : 0 ≤ z → 1 ≤ js_add z 1.
Proof.
  intros Hz. unfold js_add.
  trans (round_binary64 1); [by rewrite round_small|].
  apply round_mono. lia.
Qed.

Lemma js_add_1_mono a b : 0 ≤ a ≤ b → js_add a 1 ≤ js_add b 1.
Proof. intros Hab. apply round_mono. lia. Qed.

Lemma js_add_1_integer z : 0 ≤ z → js_integer (js_add z 1).
Proof. intros Hz. apply round_idem. lia. Qed.

(** Below 2^53 the result of adding 1 is below 2^53 only when the sum is. *)
Lemma js_add_1_below z :
  0 ≤ z → js_add z 1 < 2 ^ 53 → z + 1 < 2 ^ 53 ∧ js_add z 1 = z + 1.
Proof.
  intros Hz Hlt.
  destruct (decide (z + 1 < 2 ^ 53)) as [Hsmall|Hbig].
  - split; [done|]. apply js_add_1_exact. lia.
  - pose proof (js_add_1_saturated z Hz ltac:(lia)). lia.
Qed.

(** ** Hydration *)

Lemma reduce_max_ge_init l init : init ≤ js_reduce max_step l init.
Proof.
  unfold js_reduce. revert init.
  induction l as [|task l IH]; intros init; simpl; [lia|].
  specialize (IH (max_step init task)). unfold max_step in *. lia.
Qed.

Lemma reduce_max_bounds l init :
  Forall (λ task, Task.id task ≤ js_reduce max_step l init) l.
Proof.
  revert init. induction l as [|task l IH]; intros init; [constructor|].
  constructor; [|apply IH].
  change (js_reduce max_step (task :: l) init)
    with (js_reduce max_step l (max_step init task)).
  pose proof (reduce_max_ge_init l (max_step init task)) as Hge.
  unfold max_step in *. lia.
Qed.

Lemma reduce_max_attained l init :
  js_reduce max_step l init = init ∨ js_reduce max_step l init ∈ ids l.
Proof.
  revert init. induction l as [|task l IH]; intros init; [by left|].
  change (js_reduce max_step (task :: l) init)
    with (js_reduce max_step l (max_step init task)).
  destruct (IH (max_step init task)) as [Heq|Hin].
  - rewrite Heq. unfold max_step.
    destruct (Z.max_spec init (Task.id task)) as [[_ ->]|[_ ->]].
    + right. unfold ids. simpl. left.
    + by left.
  - right. unfold ids in *. simpl. by right.
Qed.

Lemma reduce_max_is_max l : max_id_or_0 (max_id l) l.
Proof.
  split_and!.
  - apply reduce_max_ge_init.
  - apply reduce_max_bounds.
  - apply reduce_max_attained.
Qed.

Lemma max_id_or_0_unique m1 m2 l :
  max_id_or_0 m1 l → max_id_or_0 m2 l → m1 = m2.
Proof.
  intros (Hpos1 & Hub1 & Hin1) (Hpos2 & Hub2 & Hin2).
  rewrite Forall_forall in Hub1, Hub2.
  assert (∀ m, m ∈ ids l → m ≤ m1 ∧ m ≤ m2) as Hle.
  { intros m (task & -> & Htask)%list_elem_of_fmap. auto. }
  destruct Hin1 as [->|[_ ?]%Hle], Hin2 as [->|[? _]%Hle]; lia.
Qed.

Lemma max_id_nonneg l : 0 ≤ max_id l.
Proof. apply reduce_max_ge_init. Qed.

Lemma max_id_bounds l task : task ∈ l → Task.id task ≤ max_id l.
Proof.
  intros Hin. pose proof (reduce_max_bounds l 0) as Hall.
  rewrite Forall_forall in Hall. by apply Hall.
Qed.

Lemma max_id_snoc l task :
  max_id (l ++ [task]) = Z.max (max_id l) (Task.id task).
Proof. unfold max_id, js_reduce. by rewrite fold_left_app. Qed.

Lemma max_id_sublist l1 l2 : sublist l1 l2 → max_id l1 ≤ max_id l2.
Proof.
  intros Hsub. pose proof (max_id_nonneg l2).
  destruct (reduce_max_attained l1 0) as [Heq|Hin]; fold (max_id l1) in *.
  - lia.
  - apply list_elem_of_fmap in Hin as (task & -> & Htask).
    apply max_id_bounds. by eapply elem_of_sublist.
Qed.

Lemma hydrate_array s l :
  localStorage s = Some (JSONof (JArr l)) →
  hydrate s = Done {| tasks := l; newTask := newTask s;
                      nextId := js_add (max_id l) 1;
                      localStorage := localStorage s |}.
Proof. intros Hslot. unfold hydrate. rewrite Hslot. reflexivity. Qed.

Lemma hydrate_Done_inv s s' :
  hydrate s = Done s' →
  nextId s' = js_add (max_id (tasks s')) 1
  ∧ localStorage s' = localStorage s.
Proof.
  unfold hydrate.
  destruct (JSON_parse (localStorage s)) as [parsed|e]; [|discriminate].
  destruct (js_or parsed (JArr [])); try discriminate.
  intros [= <-]. done.
Qed.

(** C4, as stated, fails: a slot that holds text which is not JSON makes
    the hydration effect throw, and so does one holding a JSON object that
    is not an array. *)
Lemma Hydrate_malformed_throws :
  Hydrate (initial (Some NotJSON)) = Threw SyntaxError
  ∧ Hydrate (initial (Some (JSONof JObj))) = Threw TypeError
  ∧ Hydrate (initial (Some NotJSON)) ≠ Done (initial (Some NotJSON)).
Proof. split_and!; [reflexivity | reflexivity | discriminate]. Qed.

(** C4, amended.  With the slot missing, or holding JSON for a falsy value,
    hydration completes with the empty list and counter 1.  Text that is not
    JSON makes it throw a [SyntaxError]; a truthy value that is not an array
    makes it throw a [TypeError].  An array is installed. *)
Theorem Hydrate_by_slot_content s :
  match localStorage s with
  | None => Hydrate s = Done (initial None)
  | Some NotJSON => Hydrate s = Threw SyntaxError
  | Some (JSONof (JArr l)) =>
      ∃ s', Hydrate s = Done s' ∧ tasks s' = l
  | Some (JSONof v) =>
      if truthy v
      then Hydrate s = Threw TypeError
      else Hydrate s = Done (initial (localStorage s))
  end.
Proof.
  unfold Hydrate, hydrate.
  destruct (localStorage s) as [[|v]|]; simpl; try reflexivity.
  destruct v as [|b|n|str|l|]; simpl; try reflexivity.
  - by destruct b.
  - unfold js_or. simpl. by destruct (n =? 0).
  - unfold js_or. simpl. by destruct (String.eqb str "").
  - eauto.
Qed.

(** C8, as stated, fails: over a slot whose largest identifier is 2^53 the
    hydration computes 2^53 + 1 in binary64, which is 2^53, so the counter
    is the largest identifier itself and not one more. *)
Lemma Hydrate_counter_equals_largest_id :
  ∃ s', Hydrate (initial (slot_with_id (2 ^ 53))) = Done s'
        ∧ ids (tasks s') = [2 ^ 53]
        ∧ nextId s' = 2 ^ 53
        ∧ nextId s' ≠ 1 + 2 ^ 53.
Proof.
  eexists. split; [reflexivity|]. split_and!; [reflexivity|reflexivity|].
  intros Heq. vm_compute in Heq. discriminate Heq.
Qed.

(** C8, amended.  A slot holding an array of task records is installed as
    the list, and the counter becomes [m + 1] computed in binary64, [m]
    being the largest identifier, or 0 when none is larger: that is [1 + m]
    whenever [m < 2^53], so [[{id:3},{id:7}]] gives 8, and 2^53 when [m] is
    2^53. *)
Theorem Hydrate_installs_list_and_counter s l :
  localStorage s = Some (JSON_stringify l) →
  ∃ s' m,
    Hydrate s = Done s'
    ∧ tasks s' = l
    ∧ max_id_or_0 m l
    ∧ nextId s' = js_add m 1
    ∧ (m < 2 ^ 53 → nextId s' = 1 + m)
    ∧ (m = 2 ^ 53 → nextId s' = 2 ^ 53)
    ∧ localStorage s' = localStorage s
    ∧ (Task.id <$> l = [3; 7] → nextId s' = 8).
Proof.
  intros Hslot.
  eexists _, (max_id l).
  split; [unfold Hydrate; apply hydrate_array; exact Hslot|].
  simpl. split_and!; try done.
  - apply reduce_max_is_max.
  - intros Hm. pose proof (max_id_nonneg l).
    rewrite js_add_1_exact by lia. lia.
  - intros ->. reflexivity.
  - intros Hids. destruct l as [|[i1 ? ?] [|[i2 ? ?] [|]]]; try discriminate.
    simpl in Hids. injection Hids as -> ->. reflexivity.
Qed.

Lemma Hydrate_installs_list_and_counter_witness :
  let l := [Task.mk 3 "three" ""; Task.mk 7 "seven" ""] in
  ∃ s', Hydrate (initial (Some (JSON_stringify l))) = Done s'
        ∧ tasks s' = l ∧ nextId s' = 8.
Proof.
  intros l.
  destruct (Hydrate_installs_list_and_counter
              (initial (Some (JSON_stringify l))) l)
    as (s' & m & Hrun & Htasks & _ & _ & _ & _ & _ & Hcounter).
  - reflexivity.
  - exists s'. split_and!; [exact Hrun | exact Htasks | apply Hcounter; reflexivity].
Defined.

(** ** Adding *)

(** C7, as stated, fails: hydrating a slot whose largest identifier is
    2^53 - 1 leaves the counter at 2^53, and there Add computes 2^53 + 1 in
    binary64, which is 2^53: the counter does not move. *)
Lemma addTask_counter_stays_at_2_53 :
  ∃ s, Hydrate (initial (slot_with_id (2 ^ 53 - 1))) = Done s
       ∧ nextId s = 2 ^ 53
       ∧ nextId (addTask s) = 2 ^ 53
       ∧ nextId (addTask s) ≠ nextId s + 1.
Proof.
  eexists. split; [reflexivity|]. split_and!; [reflexivity|reflexivity|].
  intros Heq. vm_compute in Heq. discriminate Heq.
Qed.

(** C7, amended.  From list [L], counter [c] and pending input [t], Add
    leaves the list [L ++ [{id: c, title: t, description: ""}]], the whole
    new list in the storage slot and an empty pending input, and sets the
    counter to [c + 1] computed in binary64: that is [c + 1] while
    [-2^53 <= c < 2^53], and 2^53 again when [c] is 2^53.  On an empty
    board, adding "Buy milk" gives the single record with id 1 and
    counter 2. *)
Theorem addTask_effect s :
  tasks (addTask s) = tasks s ++ [Task.mk (nextId s) (newTask s) ""]
  ∧ nextId (addTask s) = js_add (nextId s) 1
  ∧ (- 2 ^ 53 ≤ nextId s < 2 ^ 53 → nextId (addTask s) = nextId s + 1)
  ∧ (nextId s = 2 ^ 53 → nextId (addTask s) = 2 ^ 53)
  ∧ localStorage (addTask s)
      = Some (JSON_stringify (tasks s ++ [Task.mk (nextId s) (newTask s) ""]))
  ∧ newTask (addTask s) = ""
  ∧ addTask (setNewTesk "Buy milk" (initial None))
      = {| tasks := [Task.mk 1 "Buy milk" ""];
           newTask := "";
           nextId := 2;
           localStorage := Some (JSON_stringify [Task.mk 1 "Buy milk" ""]) |}.
Proof.
  split_and!; try reflexivity.
  - intros Hc. simpl. by apply js_add_1_exact.
  - intros Hc. simpl. rewrite Hc. reflexivity.
Qed.

Lemma addTask_effect_witness :
  nextId (addTask board_AB) = 4.
Proof.
  destruct (addTask_effect board_AB) as (_ & _ & Hexact & _).
  apply Hexact. change (- 2 ^ 53 ≤ 3 < 2 ^ 53). lia.
Defined.

Lemma AddTask_tasks t s :
  tasks (AddTask t s) = tasks s ++ [Task.mk (nextId s) t ""].
Proof. reflexivity. Qed.

Lemma AddTask_nextId t s : nextId (AddTask t s) = js_add (nextId s) 1.
Proof. reflexivity. Qed.

Lemma AddTask_ids t s : ids (tasks (AddTask t s)) = ids (tasks s) ++ [nextId s].
Proof. unfold ids. rewrite AddTask_tasks, fmap_app. reflexivity. Qed.

Lemma assigns_add t s : assigns (EvAdd t) s = [nextId s].
Proof.
  change (assigns (EvAdd t) s)
    with (Task.id <$> drop (length (tasks s))
                        (tasks s ++ [Task.mk (nextId s) t ""])).
  by rewrite drop_app_length.
Qed.

Lemma add_all_tasks titles s :
  1 ≤ nextId s → nextId s + Z.of_nat (length titles) ≤ 2 ^ 53 + 1 →
  tasks (add_all titles s) = tasks s ++ created_from (nextId s) titles.
Proof.
  revert s. induction titles as [|t titles IH]; intros s Hpos Hbound.
  - simpl. by rewrite app_nil_r.
  - change (add_all (t :: titles) s) with (add_all titles (AddTask t s)).
    simpl length in Hbound.
    destruct (decide (titles = [])) as [->|Hne].
    + change (add_all [] (AddTask t s)) with (AddTask t s).
      rewrite AddTask_tasks. unfold created_from. simpl.
      by rewrite Z.add_0_r.
    + assert (1 ≤ length titles)%nat as Hlen
        by (destruct titles; [done|simpl; lia]).
      assert (Hnext : nextId (AddTask t s) = nextId s + 1).
      { rewrite AddTask_nextId. apply js_add_1_exact. lia. }
      rewrite IH by (rewrite Hnext; lia).
      rewrite Hnext, AddTask_tasks, <- app_assoc.
      f_equal. unfold created_from. rewrite imap_cons. simpl.
      rewrite Z.add_0_r. f_equal.
      apply imap_ext. intros n t' _. simpl. f_equal. lia.
Qed.

Lemma created_from_lookup c titles n task :
  created_from c titles !! n = Some task →
  Task.id task = c + Z.of_nat n.
Proof.
  unfold created_from. rewrite list_lookup_imap.
  destruct (titles !! n); simpl; [|discriminate].
  by intros [= <-].
Qed.

Lemma created_from_sorted c titles :
  StronglySorted Z.lt (ids (created_from c titles)).
Proof.
  unfold ids, created_from. revert c.
  induction titles as [|t titles IH]; intros c; [constructor|].
  simpl. constructor.
  - rewrite (imap_ext _ (λ n t', Task.mk ((c + 1) + Z.of_nat n) t' ""))
      by (intros; simpl; f_equal; lia).
    apply IH.
  - rewrite Forall_forall. intros i (task & -> & Htask)%list_elem_of_fmap.
    apply list_elem_of_lookup in Htask as [n Hn].
    rewrite list_lookup_imap in Hn.
    destruct (titles !! n); simpl in Hn; [|discriminate].
    injection Hn as <-. simpl. lia.
Qed.

(** ** Reachable states *)

Lemma initial_counter_inv slot : counter_inv (initial slot).
Proof. split_and!; [simpl; lia | reflexivity | reflexivity]. Qed.

Lemma hydrate_counter_inv s s' : hydrate s = Done s' → counter_inv s'.
Proof.
  intros [Hnext _]%hydrate_Done_inv.
  pose proof (max_id_nonneg (tasks s')).
  unfold counter_inv. rewrite Hnext. split_and!.
  - by apply js_add_1_ge_1.
  - by apply js_add_1_integer.
  - done.
Qed.

Lemma AddTask_counter_inv t s : counter_inv s → counter_inv (AddTask t s).
Proof.
  intros (Hpos & Hint & Hmax).
  pose proof (js_integer_le_succ (nextId s) ltac:(lia) Hint) as Hgrow.
  unfold counter_inv. rewrite AddTask_nextId, AddTask_tasks, max_id_snoc.
  simpl Task.id. split_and!.
  - apply js_add_1_ge_1. lia.
  - apply js_add_1_integer. lia.
  - destruct (Z.max_spec (max_id (tasks s)) (nextId s)) as [[_ ->]|[_ ->]];
      [done|lia].
Qed.

Lemma DeleteTask_counter_inv arg s :
  counter_inv s → counter_inv (DeleteTask arg s).
Proof.
  intros (Hpos & Hint & Hmax). split_and!; [done|done|].
  change (nextId (DeleteTask arg s)) with (nextId s).
  etrans; [|exact Hmax]. apply js_add_1_mono. split.
  - apply max_id_nonneg.
  - apply max_id_sublist, handleDelete_sublist.
Qed.

Lemma step_counter_inv ev s s' :
  counter_inv s → step ev s = Done s' → counter_inv s'.
Proof.
  destruct ev as [|t|arg]; simpl; intros Hinv Hstep.
  - by eapply hydrate_counter_inv.
  - injection Hstep as <-. by apply AddTask_counter_inv.
  - injection Hstep as <-. by apply DeleteTask_counter_inv.
Qed.

Lemma reachable_counter_inv s : reachable s → counter_inv s.
Proof.
  induction 1 as [slot|ev s s' _ IH Hstep].
  - apply initial_counter_inv.
  - by eapply step_counter_inv.
Qed.

(** While the counter is below 2^53 it is above every identifier of the
    list. *)
Lemma counter_inv_ids_below s :
  counter_inv s → nextId s < 2 ^ 53 → ids_below_counter s.
Proof.
  intros (_ & _ & Hmax) Hsafe.
  pose proof (max_id_nonneg (tasks s)).
  destruct (js_add_1_below (max_id (tasks s))) as [_ Hexact]; [lia..|].
  unfold ids_below_counter. rewrite Forall_forall. intros task Htask.
  apply max_id_bounds in Htask. lia.
Qed.

Lemma reachable_ids_below_counter s :
  reachable s → nextId s < 2 ^ 53 → ids_below_counter s.
Proof. intros Hreach. by apply counter_inv_ids_below, reachable_counter_inv. Qed.

Lemma reachable_run evs s s' : reachable s → run evs s = Done s' → reachable s'.
Proof.
  revert s. induction evs as [|ev evs IH]; intros s Hs; simpl.
  - by intros [= <-].
  - destruct (step ev s) as [s1|e] eqn:Hstep; [|discriminate].
    apply IH. by eapply reach_step.
Qed.

Lemma reachable_board_AB : reachable board_AB.
Proof.
  apply (reach_step (EvAdd "B") (AddTask "A" (initial None))); [|reflexivity].
  apply (reach_step (EvAdd "A") (initial None)); [|reflexivity].
  apply reach_initial.
Qed.

(** ** Identifiers handed out during a session *)

(** The counter never goes down during a session, so nothing handed out is
    below the counter the session started with. *)
Lemma session_assigned_ge evs s :
  counter_inv s → in_session evs →
  Forall (λ i, nextId s ≤ i) (assigned_ids evs s).
Proof.
  revert s. induction evs as [|ev evs IH]; intros s Hinv Hsession; [constructor|].
  apply Forall_cons in Hsession as [Hev Hsession].
  destruct ev as [|t|arg]; [discriminate| |].
  - cbn [assigned_ids step]. rewrite assigns_add. simpl.
    constructor; [lia|].
    destruct Hinv as (Hpos & Hint & Hmax).
    pose proof (js_integer_le_succ (nextId s) ltac:(lia) Hint) as Hgrow.
    eapply Forall_impl;
      [apply (IH (AddTask t s)); [by apply AddTask_counter_inv|done]|].
    intros i Hi. cbv beta in Hi. rewrite AddTask_nextId in Hi. lia.
  - cbn [assigned_ids step assigns]. simpl.
    apply (IH (DeleteTask arg s)); [by apply DeleteTask_counter_inv|done].
Qed.

(** A session without an Add hands out nothing. *)
Lemma session_without_adds evs s :
  in_session evs → adds evs = 0%nat → assigned_ids evs s = [].
Proof.
  revert s. induction evs as [|ev evs IH]; intros s Hsession Hadds; [done|].
  apply Forall_cons in Hsession as [Hev Hsession].
  destruct ev as [|t|arg]; [discriminate|discriminate|].
  cbn [assigned_ids step assigns]. simpl. by apply IH.
Qed.

(** While the counter stays within 2^53, a session hands out pairwise
    distinct identifiers. *)
Lemma session_assigned_NoDup evs s :
  counter_inv s → in_session evs →
  nextId s + Z.of_nat (adds evs) ≤ 2 ^ 53 →
  NoDup (assigned_ids evs s).
Proof.
  revert s. induction evs as [|ev evs IH]; intros s Hinv Hsession Hbound;
    [constructor|].
  pose proof Hsession as [Hev Hrest]%Forall_cons.
  pose proof Hinv as (Hpos & _ & _).
  destruct ev as [|t|arg]; [discriminate| |].
  - cbn [assigned_ids step]. rewrite assigns_add. simpl.
    cbn [adds] in Hbound.
    constructor.
    + intros Hin.
      pose proof (session_assigned_ge evs (AddTask t s)
                    (AddTask_counter_inv t s Hinv) Hrest) as Hge.
      rewrite Forall_forall in Hge. apply Hge in Hin.
      rewrite AddTask_nextId, js_add_1_exact in Hin by lia. lia.
    + destruct (decide (adds evs = 0%nat)) as [Hnone|Hsome].
      * rewrite session_without_adds by done. constructor.
      * apply IH; [by apply AddTask_counter_inv|done|].
        rewrite AddTask_nextId, js_add_1_exact by lia. lia.
  - cbn [assigned_ids step assigns]. simpl.
    apply IH; [by apply DeleteTask_counter_inv|done|].
    change (nextId (DeleteTask arg s)) with (nextId s).
    cbn [adds] in Hbound. lia.
Qed.

Lemma session_assigned_fresh evs s i :
  counter_inv s → nextId s < 2 ^ 53 → in_session evs →
  i ∈ assigned_ids evs s → i ∉ ids (tasks s).
Proof.
  intros Hinv Hsafe Hsession Hin (task & -> & Htask)%list_elem_of_fmap.
  pose proof (session_assigned_ge evs s Hinv Hsession) as Hge.
  rewrite Forall_forall in Hge. apply Hge in Hin.
  pose proof (counter_inv_ids_below s Hinv Hsafe) as Hbelow.
  unfold ids_below_counter in Hbelow. rewrite Forall_forall in Hbelow.
  apply Hbelow in Htask. lia.
Qed.

(** C5, as stated, fails.  Load an empty board, add A and B (ids 1 and 2),
    delete with argument 1 (which removes B), load the page again and add C:
    the counter was re-seeded from the surviving record, and C gets id 2.
    Within one session the same happens once the counter has reached 2^53:
    two Adds in a row both hand out 2^53. *)
Lemma id_assigned_again_after_reload :
  let evs := [EvHydrate; EvAdd "A"; EvAdd "B"; EvDelete 1; EvHydrate; EvAdd "C"] in
  assigned_ids evs (initial None) = [1; 2; 2]
  ∧ ¬ NoDup (assigned_ids evs (initial None))
  ∧ (∃ s', run evs (initial None) = Done s'
           ∧ tasks s' = [Task.mk 1 "A" ""; Task.mk 2 "C" ""])
  ∧ (∃ s, Hydrate (initial (slot_with_id (2 ^ 53 - 1))) = Done s
          ∧ assigned_ids [EvAdd "a"; EvAdd "b"] s = [2 ^ 53; 2 ^ 53]).
Proof.
  intros evs. split_and!.
  - reflexivity.
  - change (assigned_ids evs (initial None)) with [1; 2; 2].
    intros Hnodup. apply NoDup_cons in Hnodup as [_ Hnodup].
    apply NoDup_cons in Hnodup as [Hnotin _].
    apply Hnotin. left.
  - eexists. split; reflexivity.
  - eexists. split; reflexivity.
Qed.

(** C5, amended.  Between two hydrations, from any reachable state, and as
    long as the Adds do not take the counter past 2^53, the identifiers
    given to the records that Add creates are pairwise distinct, are at
    least the counter, and differ from every identifier in the list the
    session started from, whatever is deleted in between. *)
Theorem session_ids_never_reassigned s evs :
  reachable s → in_session evs →
  nextId s + Z.of_nat (adds evs) ≤ 2 ^ 53 →
  NoDup (assigned_ids evs s)
  ∧ Forall (λ i, nextId s ≤ i) (assigned_ids evs s)
  ∧ (∀ i, i ∈ assigned_ids evs s → i ∉ ids (tasks s)).
Proof.
  intros Hinv%reachable_counter_inv Hsession Hbound. split_and!.
  - by apply session_assigned_NoDup.
  - by apply session_assigned_ge.
  - intros i Hin.
    destruct (decide (adds evs = 0%nat)) as [Hnone|Hsome].
    + rewrite session_without_adds in Hin by done. by apply elem_of_nil in Hin.
    + apply (session_assigned_fresh evs s i); [done|lia|done|done].
Qed.

Lemma session_ids_never_reassigned_witness :
  let evs := [EvDelete 1; EvAdd "C"; EvDelete 0; EvAdd "D"] in
  assigned_ids evs board_AB = [3; 4] ∧ NoDup (assigned_ids evs board_AB).
Proof.
  intros evs. split; [reflexivity|].
  apply (session_ids_never_reassigned board_AB evs).
  - exact reachable_board_AB.
  - repeat constructor.
  - change (3 + 2 ≤ 2 ^ 53). lia.
Defined.

(** C10, as stated, fails in its consequence.  Over a slot whose only
    record has id 2^53 the hydration leaves the counter at 2^53; after that
    record is deleted, the next Add creates a record with id 2^53 again. *)
Lemma deleted_id_handed_out_again :
  ∃ s, Hydrate (initial (slot_with_id (2 ^ 53))) = Done s
       ∧ ids (tasks s) = [2 ^ 53]
       ∧ tasks (DeleteTask 0 s) = []
       ∧ assigned_ids [EvAdd "a"] (DeleteTask 0 s) = [2 ^ 53]
       ∧ ids (tasks (AddTask "a" (DeleteTask 0 s))) = [2 ^ 53].
Proof. eexists. split; [reflexivity|]. split_and!; reflexivity. Qed.

(** C10, amended.  Deleting leaves the counter as it was; so, within a
    session that starts from a reachable state whose counter is below 2^53,
    no later Add gives a record the identifier of a record that was in the
    list before the delete. *)
Theorem DeleteTask_keeps_counter arg s :
  nextId (DeleteTask arg s) = nextId s
  ∧ (reachable s → nextId s < 2 ^ 53 → ∀ evs task,
       in_session evs → task ∈ tasks s →
       Task.id task ∉ assigned_ids evs (DeleteTask arg s)).
Proof.
  split; [reflexivity|].
  intros Hinv%reachable_counter_inv Hsafe evs task Hsession Htask Hin.
  pose proof (session_assigned_ge evs (DeleteTask arg s)
                (DeleteTask_counter_inv arg s Hinv) Hsession) as Hge.
  rewrite Forall_forall in Hge. apply Hge in Hin.
  pose proof (counter_inv_ids_below s Hinv Hsafe) as Hbelow.
  unfold ids_below_counter in Hbelow. rewrite Forall_forall in Hbelow.
  apply Hbelow in Htask.
  change (nextId (DeleteTask arg s)) with (nextId s) in Hin. lia.
Qed.

Lemma DeleteTask_keeps_counter_witness :
  nextId (DeleteTask 1 board_AB) = 3
  ∧ 2 ∉ assigned_ids [EvAdd "C"; EvAdd "D"] (DeleteTask 1 board_AB).
Proof.
  destruct (DeleteTask_keeps_counter 1 board_AB) as [Hcounter Hfresh].
  split; [exact Hcounter|].
  apply (Hfresh reachable_board_AB ltac:(change (3 < 2 ^ 53); lia)
           [EvAdd "C"; EvAdd "D"] (Task.mk 2 "B" "")).
  - repeat constructor.
  - right. left.
Defined.

(** C6, as stated, fails.  Hydrating a slot whose largest identifier is
    2^53 - 1 leaves the counter at 2^53, where it no longer advances: two
    Adds both create a record with id 2^53. *)
Lemma AddTask_repeats_id_at_2_53 :
  ∃ s, Hydrate (initial (slot_with_id (2 ^ 53 - 1))) = Done s
       ∧ ids (tasks (add_all ["a"; "b"] s)) = [2 ^ 53 - 1; 2 ^ 53; 2 ^ 53].
Proof. eexists. split; reflexivity. Qed.

(** C6, amended.  From any reachable state, a sequence of [AddTask] calls
    that does not take the counter past 2^53 appends one record per call, in
    order; the identifiers of the new records increase strictly in creation
    order, each is strictly greater than the identifier of every record
    before it in the list (the records that were there when it was created),
    and no other record of the list carries it. *)
Theorem AddTask_ids_strictly_increasing s titles :
  reachable s →
  nextId s + Z.of_nat (length titles) ≤ 2 ^ 53 →
  ∃ created,
    tasks (add_all titles s) = tasks s ++ created
    ∧ Task.title <$> created = titles
    ∧ StronglySorted Z.lt (ids created)
    ∧ (∀ i j ti tj,
         tasks (add_all titles s) !! i = Some ti →
         tasks (add_all titles s) !! j = Some tj →
         (length (tasks s) ≤ j)%nat → (i < j)%nat →
         Task.id ti < Task.id tj)
    ∧ (∀ i j ti tj,
         tasks (add_all titles s) !! i = Some ti →
         tasks (add_all titles s) !! j = Some tj →
         (length (tasks s) ≤ j)%nat → Task.id ti = Task.id tj →
         i = j).
Proof.
  intros Hinv%reachable_counter_inv Hbound.
  pose proof Hinv as (Hpos & _ & _).
  exists (created_from (nextId s) titles).
  assert (Horder : ∀ i j ti tj,
    (tasks s ++ created_from (nextId s) titles) !! i = Some ti →
    (tasks s ++ created_from (nextId s) titles) !! j = Some tj →
    (length (tasks s) ≤ j)%nat → (i < j)%nat →
    Task.id ti < Task.id tj).
  { intros i j ti tj Hi Hj Hlen Hlt.
    rewrite lookup_app_r in Hj by done.
    assert (titles ≠ []) as Hne by (intros ->; done).
    assert (nextId s < 2 ^ 53) as Hsafe
      by (destruct titles; [done|simpl length in Hbound; lia]).
    pose proof (counter_inv_ids_below s Hinv Hsafe) as Hbelow.
    unfold ids_below_counter in Hbelow. rewrite Forall_forall in Hbelow.
    apply created_from_lookup in Hj.
    destruct (decide (i < length (tasks s))%nat) as [Hold|Hnew].
    - rewrite lookup_app_l in Hi by done.
      apply list_elem_of_lookup_2, Hbelow in Hi. lia.
    - rewrite lookup_app_r in Hi by lia.
      apply created_from_lookup in Hi. lia. }
  rewrite add_all_tasks by lia. split_and!.
  - done.
  - unfold created_from. apply list_eq. intros n.
    rewrite list_lookup_fmap, list_lookup_imap.
    by destruct (titles !! n).
  - apply created_from_sorted.
  - exact Horder.
  - intros i j ti tj Hi Hj Hlen Heq.
    destruct (lt_eq_lt_dec i j) as [[Hlt| ->]|Hgt]; [|done|].
    + pose proof (Horder i j ti tj Hi Hj Hlen Hlt). lia.
    + pose proof (Horder j i tj ti Hj Hi ltac:(lia) Hgt). lia.
Qed.

Lemma AddTask_ids_strictly_increasing_witness :
  ∃ created,
    tasks (add_all ["C"; "C"] board_AB) = tasks board_AB ++ created
    ∧ StronglySorted Z.lt (ids created).
Proof.
  destruct (AddTask_ids_strictly_increasing board_AB ["C"; "C"]
              reachable_board_AB ltac:(change (3 + 2 ≤ 2 ^ 53); lia))
    as (created & Htasks & _ & Hsorted & _).
  exists created. split; [exact Htasks | exact Hsorted].
Defined.

(** ** Reloading the page *)

Lemma Hydrate_array s l :
  localStorage s = Some (JSON_stringify l) →
  Hydrate s = Done {| tasks := l; newTask := "";
                      nextId := js_add (max_id l) 1;
                      localStorage := localStorage s |}.
Proof.
  intros Hslot. unfold Hydrate.
  rewrite (hydrate_array (initial (localStorage s)) l) by exact Hslot.
  reflexivity.
Qed.

Lemma Hydrate_Done_inv s s' :
  Hydrate s = Done s' →
  nextId s' = js_add (max_id (tasks s')) 1
  ∧ localStorage s' = localStorage s
  ∧ newTask s' = "".
Proof.
  unfold Hydrate, hydrate. simpl.
  destruct (JSON_parse (localStorage s)) as [parsed|e]; [|discriminate].
  destruct (js_or parsed (JArr [])); try discriminate.
  intros [= <-]. done.
Qed.

(** X1.  Whatever the state and the slot held before, once an operation has
    completed a reload does not throw and shows the list that was on
    screen; the slot is left as it was. *)
Theorem reload_after_step_restores_list ev s s' :
  step ev s = Done s' →
  ∃ s'', Hydrate s' = Done s''
         ∧ tasks s'' = tasks s'
         ∧ localStorage s'' = localStorage s'.
Proof.
  destruct ev as [|t|arg]; simpl; intros Hstep.
  - exists s'.
    pose proof (Hydrate_Done_inv s s' Hstep) as (_ & Hslot & _).
    unfold Hydrate in *. rewrite Hslot. done.
  - injection Hstep as <-. eexists. split; [by apply Hydrate_array|done].
  - injection Hstep as <-. eexists. split; [by apply Hydrate_array|done].
Qed.

Lemma reload_after_step_restores_list_witness :
  let s := mkState [Task.mk 4 "A" ""; Task.mk 9 "B" ""] "draft" 2 (Some NotJSON) in
  Hydrate s = Threw SyntaxError
  ∧ ∃ s'', Hydrate (DeleteTask 0 s) = Done s''
           ∧ tasks s'' = [Task.mk 9 "B" ""].
Proof.
  intros s. split; [reflexivity|].
  destruct (reload_after_step_restores_list (EvDelete 0) s (DeleteTask 0 s))
    as (s'' & Hrun & Htasks & _); [reflexivity|].
  exists s''. split; [exact Hrun | exact Htasks].
Defined.

(** After an Add, the hydration's reduce finds a maximum from which it
    computes the counter the Add left. *)
Lemma counter_after_add s t :
  counter_inv s →
  js_add (max_id (tasks (AddTask t s))) 1 = nextId (AddTask t s).
Proof.
  intros (Hpos & Hint & Hmax).
  rewrite AddTask_tasks, AddTask_nextId, max_id_snoc. simpl Task.id.
  destruct (Z.max_spec (max_id (tasks s)) (nextId s)) as [[_ ->]|[Hle ->]];
    [done|].
  pose proof (js_integer_le_succ (nextId s) ltac:(lia) Hint) as Hgrow.
  pose proof (js_add_1_mono (nextId s) (max_id (tasks s)) ltac:(lia)).
  lia.
Qed.

(** X2.  In a reachable state, a reload right after an Add changes nothing at
    all: same list, same counter, same empty input, same slot. *)
Theorem reload_after_add_is_identity s t :
  reachable s → Hydrate (AddTask t s) = Done (AddTask t s).
Proof.
  intros Hinv%reachable_counter_inv.
  rewrite (Hydrate_array (AddTask t s) (tasks (AddTask t s))) by reflexivity.
  rewrite counter_after_add by done.
  reflexivity.
Qed.

Lemma reload_after_add_is_identity_witness :
  Hydrate (AddTask "C" board_AB) = Done board_ABC.
Proof. apply (reload_after_add_is_identity board_AB "C"), reachable_board_AB. Defined.

(** X3.  When a reload restores the list, it never raises the counter; and
    while the counter is below 2^53 the reload keeps it exactly when the
    counter is 1 or the record with the last identifier handed out is still
    in the list. *)
Theorem reload_counter s s' :
  reachable s → Hydrate s = Done s' → tasks s' = tasks s →
  nextId s' ≤ nextId s
  ∧ (nextId s < 2 ^ 53 →
     (nextId s' = nextId s ↔ nextId s = 1 ∨ nextId s - 1 ∈ ids (tasks s))).
Proof.
  intros Hinv%reachable_counter_inv Hrun Htasks.
  pose proof Hinv as (Hpos & _ & Hmax).
  apply Hydrate_Done_inv in Hrun as (Hnext & _ & _).
  rewrite Htasks in Hnext. rewrite Hnext.
  split; [exact Hmax|]. intros Hsafe.
  pose proof (counter_inv_ids_below s Hinv Hsafe) as Hbelow.
  unfold ids_below_counter in Hbelow. rewrite Forall_forall in Hbelow.
  destruct (reduce_max_is_max (tasks s)) as (Hge & Hub & Hatt).
  rewrite Forall_forall in Hub.
  destruct (js_add_1_below (max_id (tasks s))) as [_ ->]; [lia..|].
  set (m := max_id (tasks s)) in *.
  assert (Hin : ∀ i, i ∈ ids (tasks s) → i < nextId s ∧ i ≤ m).
  { intros i (task & -> & Htask)%list_elem_of_fmap. split; auto. }
  split.
  - intros Heq. destruct Hatt as [Hzero|Hmem]; [left; lia|].
    right. by replace (nextId s - 1) with m by lia.
  - intros [Hone|[_ Hlast]%Hin].
    + destruct Hatt as [->|[? _]%Hin]; lia.
    + destruct Hatt as [Hzero|[? _]%Hin]; lia.
Qed.

Lemma reload_counter_witness :
  ∃ s', Hydrate (DeleteTask 1 board_AB) = Done s'
        ∧ nextId s' ≤ nextId (DeleteTask 1 board_AB)
        ∧ nextId s' = 2 ∧ nextId (DeleteTask 1 board_AB) = 3.
Proof.
  eexists. split; [reflexivity|].
  split; [|split; reflexivity].
  apply reload_counter.
  - apply (reach_step (EvDelete 1) board_AB); [exact reachable_board_AB|reflexivity].
  - reflexivity.
  - reflexivity.
Defined.

(** X4.  Running the hydration effect a second time changes nothing. *)
Theorem hydrate_idempotent s s' :
  hydrate s = Done s' → hydrate s' = Done s'.
Proof.
  unfold hydrate.
  destruct (JSON_parse (localStorage s)) as [parsed|e] eqn:Hparse; [|discriminate].
  destruct (js_or parsed (JArr [])) as [| | | |savedTasks|] eqn:Hor; try discriminate.
  intros [= <-]. simpl. rewrite Hparse, Hor. reflexivity.
Qed.

Lemma hydrate_idempotent_witness :
  let s := mkState [] "draft" 1 (Some (JSON_stringify [Task.mk 3 "x" ""; Task.mk 7 "y" ""])) in
  ∃ s', hydrate s = Done s' ∧ hydrate s' = Done s' ∧ nextId s' = 8.
Proof.
  intros s. eexists. split; [reflexivity|].
  split; [apply (hydrate_idempotent s); reflexivity | reflexivity].
Defined.

(** ** More on deleting *)

(** X5.  The delete handler changes the list exactly when its argument is a
    position of the list. *)
Theorem handleDelete_changes_iff_in_range index s :
  tasks (handleDelete index s) ≠ tasks s
  ↔ 0 ≤ index < Z.of_nat (length (tasks s)).
Proof.
  split.
  - intros Hchanged.
    destruct (decide (0 ≤ index < Z.of_nat (length (tasks s)))) as [|Hout]; [done|].
    exfalso. apply Hchanged, handleDelete_out_of_range. lia.
  - intros Hin Hsame. apply (f_equal length) in Hsame.
    rewrite handleDelete_in_range in Hsame by lia.
    rewrite length_delete in Hsame by (apply lookup_lt_is_Some; lia).
    lia.
Qed.

Lemma handleDelete_slot index s :
  localStorage (handleDelete index s)
  = Some (JSON_stringify (tasks (handleDelete index s))).
Proof. reflexivity. Qed.

(** X6.  Deleting at the position of the record just added puts the list and
    the slot back, but the counter stays where the Add left it: one more
    than before while it was below 2^53. *)
Theorem delete_after_add s :
  let s' := handleDelete (Z.of_nat (length (tasks s))) (addTask s) in
  tasks s' = tasks s
  ∧ localStorage s' = Some (JSON_stringify (tasks s))
  ∧ nextId s' = nextId (addTask s)
  ∧ (- 2 ^ 53 ≤ nextId s < 2 ^ 53 → nextId s' = nextId s + 1).
Proof.
  assert (Htasks : tasks (handleDelete (Z.of_nat (length (tasks s))) (addTask s))
                   = tasks s).
  { rewrite handleDelete_in_range by lia.
    rewrite Nat2Z.id. simpl. rewrite delete_middle. apply app_nil_r. }
  cbv zeta. split_and!; [exact Htasks | | reflexivity | ].
  - rewrite handleDelete_slot. by rewrite Htasks.
  - intros Hc. simpl. by apply js_add_1_exact.
Qed.

Lemma delete_after_add_witness :
  nextId (handleDelete 2 (addTask board_AB)) = 4.
Proof.
  destruct (delete_after_add board_AB) as (_ & _ & _ & Hexact).
  apply Hexact. change (- 2 ^ 53 ≤ 3 < 2 ^ 53). lia.
Defined.

(** ** Invariants of the list along any run *)

Lemma run_invariant (P : State → Prop) :
  (∀ ev s s', P s → step ev s = Done s' → P s') →
  ∀ evs s s', P s → run evs s = Done s' → P s'.
Proof.
  intros Hstep evs. induction evs as [|ev evs IH]; intros s s' Hs; simpl.
  - by intros [= <-].
  - destruct (step ev s) as [s1|e] eqn:Hev; [|discriminate].
    apply IH. by eapply Hstep.
Qed.

Lemma run_counter_inv slot evs s :
  run evs (initial slot) = Done s → counter_inv s.
Proof.
  apply (run_invariant counter_inv step_counter_inv), initial_counter_inv.
Qed.

(** What a completed hydration installs comes from the slot. *)
Lemma Hydrate_tasks_from_slot (P : list Task.t → Prop) s s' :
  P [] → slot_array P (localStorage s) →
  Hydrate s = Done s' → P (tasks s').
Proof.
  intros Hnil Hslot. unfold Hydrate, hydrate. simpl.
  destruct (localStorage s) as [[|v]|]; simpl in *.
  - discriminate.
  - unfold js_or. destruct v as [|b|n|str|l|]; simpl.
    + by intros [= <-].
    + destruct b; simpl; [discriminate|]. by intros [= <-].
    + destruct (n =? 0); simpl; [|discriminate]. by intros [= <-].
    + destruct (String.eqb str ""); simpl; [|discriminate]. by intros [= <-].
    + by intros [= <-].
    + discriminate.
  - by intros [= <-].
Qed.

Lemma slot_array_impl (P Q : list Task.t → Prop) slot :
  (∀ l, P l → Q l) → slot_array P slot → slot_array Q slot.
Proof. intros HPQ. destruct slot as [[|[]]|]; simpl; auto. Qed.

Lemma StronglySorted_sublist {A} (R : relation A) (l1 l2 : list A) :
  sublist l1 l2 → StronglySorted R l2 → StronglySorted R l1.
Proof.
  induction 1 as [|x l1 l2 Hsub IH|x l1 l2 Hsub IH]; intros Hsorted.
  - constructor.
  - apply StronglySorted_cons in Hsorted as [Hall Hsorted].
    apply StronglySorted_cons. split; [|by apply IH].
    rewrite Forall_forall in Hall. rewrite Forall_forall. intros y Hy.
    apply Hall. by eapply elem_of_sublist.
  - apply StronglySorted_cons in Hsorted as [_ Hsorted]. by apply IH.
Qed.

Lemma StronglySorted_weaken {A} (R1 R2 : relation A) (P : A → Prop) (l : list A) :
  (∀ x y, P y → R1 x y → R2 x y) →
  Forall P l → StronglySorted R1 l → StronglySorted R2 l.
Proof.
  intros Himpl. induction l as [|x l IH]; intros Hall Hsorted; [constructor|].
  apply Forall_cons in Hall as [_ Hall].
  apply StronglySorted_cons in Hsorted as [Hx Hsorted].
  apply StronglySorted_cons. split; [|by apply IH].
  rewrite Forall_forall in Hall, Hx. rewrite Forall_forall. intros y Hy.
  apply Himpl; auto.
Qed.

Lemma sublist_filter_both {A} (P : A → Prop) `{!∀ x, Decision (P x)}
    (l1 l2 : list A) :
  sublist l1 l2 → sublist (filter P l1) (filter P l2).
Proof.
  induction 1 as [|x l1 l2 Hsub IH|x l1 l2 Hsub IH]; [constructor| |].
  - destruct (decide (P x)).
    + rewrite !filter_cons_True by done. by apply sublist_skip.
    + by rewrite !filter_cons_False by done.
  - destruct (decide (P x)).
    + rewrite filter_cons_True by done. by apply sublist_cons.
    + by rewrite filter_cons_False by done.
Qed.

Lemma filter_all {A} (P : A → Prop) `{!∀ x, Decision (P x)} (l : list A) :
  Forall P l → filter P l = l.
Proof.
  induction 1 as [|x l Hx _ IH]; [done|].
  rewrite filter_cons_True by done. by rewrite IH.
Qed.

Lemma handleDelete_ids_sublist index s :
  sublist (ids (tasks (handleDelete index s))) (ids (tasks s)).
Proof. unfold ids. apply fmap_sublist, handleDelete_sublist. Qed.

Lemma ids_below_counter_all_safe s :
  ids_below_counter s → nextId s < 2 ^ 53 →
  Forall (λ i, i < 2 ^ 53) (ids (tasks s)).
Proof.
  unfold ids_below_counter. rewrite !Forall_forall.
  intros Hbelow Hsafe i (task & -> & Htask)%list_elem_of_fmap.
  apply Hbelow in Htask. lia.
Qed.

(** *** Distinct identifiers *)

Lemma unique_ids_safe l : unique_ids l → unique_safe_ids l.
Proof.
  unfold unique_ids, unique_safe_ids. intros Hnodup.
  eapply sublist_NoDup; [exact Hnodup|apply sublist_filter].
Qed.

Lemma step_unique_state ev s s' :
  counter_inv s ∧ unique_state s → step ev s = Done s' →
  counter_inv s' ∧ unique_state s'.
Proof.
  intros [Hinv [Hnodup Hslot]] Hstep.
  split; [by eapply step_counter_inv|].
  destruct ev as [|t|arg]; simpl in Hstep.
  - split.
    + eapply (Hydrate_tasks_from_slot unique_safe_ids);
        [constructor|exact Hslot|exact Hstep].
    + apply Hydrate_Done_inv in Hstep as (_ & -> & _). exact Hslot.
  - injection Hstep as <-.
    assert (unique_safe_ids (tasks (AddTask t s))) as Hnew.
    { unfold unique_safe_ids. rewrite AddTask_ids, filter_app.
      destruct (decide (nextId s < 2 ^ 53)) as [Hsafe|Hsat].
      - rewrite (filter_cons_True _ (nextId s)) by done.
        rewrite filter_nil.
        apply NoDup_app. split_and!; [done| |apply NoDup_singleton].
        intros i [_ Hi]%list_elem_of_filter ->%list_elem_of_singleton.
        apply list_elem_of_fmap in Hi as (task & Heq & Htask).
        pose proof (counter_inv_ids_below s Hinv Hsafe) as Hbelow.
        unfold ids_below_counter in Hbelow. rewrite Forall_forall in Hbelow.
        apply Hbelow in Htask. lia.
      - rewrite (filter_cons_False _ (nextId s)) by done.
        rewrite filter_nil, app_nil_r. exact Hnodup. }
    split; done.
  - injection Hstep as <-.
    assert (unique_safe_ids (tasks (DeleteTask arg s))) as Hnew.
    { eapply sublist_NoDup; [exact Hnodup|].
      apply sublist_filter_both, handleDelete_ids_sublist. }
    split; done.
Qed.

Lemma run_unique_state slot evs s :
  slot_array unique_ids slot →
  run evs (initial slot) = Done s →
  counter_inv s ∧ unique_state s.
Proof.
  intros Hslot Hrun.
  apply (run_invariant (λ s, counter_inv s ∧ unique_state s)
           step_unique_state evs (initial slot) s); [|exact Hrun].
  split; [apply initial_counter_inv|]. split; [constructor|].
  eapply slot_array_impl; [apply unique_ids_safe|exact Hslot].
Qed.

Lemma unique_state_NoDup s :
  counter_inv s → unique_state s → nextId s < 2 ^ 53 → NoDup (ids (tasks s)).
Proof.
  intros Hinv [Hnodup _] Hsafe.
  unfold unique_safe_ids in Hnodup.
  rewrite filter_all in Hnodup; [done|].
  apply ids_below_counter_all_safe; [by apply counter_inv_ids_below|done].
Qed.

(** X7.  Unless the slot the page was mounted over holds an array with repeated
    identifiers, in every state reached with the counter below 2^53 no two
    records of the list share an identifier, whatever was loaded, added and
    deleted on the way. *)
Theorem ids_stay_unique slot evs s :
  slot_array unique_ids slot →
  run evs (initial slot) = Done s →
  nextId s < 2 ^ 53 →
  NoDup (ids (tasks s)).
Proof.
  intros Hslot Hrun Hsafe.
  destruct (run_unique_state slot evs s Hslot Hrun) as [Hinv Huniq].
  by apply unique_state_NoDup.
Qed.

Lemma ids_stay_unique_witness :
  let slot := Some (JSON_stringify [Task.mk 7 "x" ""; Task.mk 3 "y" ""]) in
  let evs := [EvHydrate; EvAdd "z"; EvDelete 0; EvHydrate; EvAdd "w"] in
  ∃ s, run evs (initial slot) = Done s
       ∧ ids (tasks s) = [3; 8; 9] ∧ NoDup (ids (tasks s)).
Proof.
  intros slot evs. eexists. split; [reflexivity|]. split; [reflexivity|].
  apply (ids_stay_unique slot evs).
  - unfold slot. simpl. unfold unique_ids. simpl.
    apply NoDup_cons. split; [|apply NoDup_singleton].
    intros Hin%list_elem_of_singleton. discriminate.
  - reflexivity.
  - change (10 < 2 ^ 53). lia.
Defined.

(** *** Increasing identifiers *)

Lemma increasing_ids_nearly l : increasing_ids l → nearly_increasing_ids l.
Proof.
  intros [Hpos Hsorted]. split; [done|].
  eapply (StronglySorted_weaken Z.lt lt_or_saturated (λ _, True));
    [|by apply Forall_true|exact Hsorted].
  intros x y _ Hlt. by left.
Qed.

(** Identifiers grow at least as fast as positions, up to position 2^53. *)
Lemma nearly_increasing_position l :
  ∀ b p task,
    Forall (λ task, b < Task.id task ∨ 2 ^ 53 ≤ Task.id task) l →
    StronglySorted lt_or_saturated (ids l) →
    l !! p = Some task →
    b + Z.of_nat p < 2 ^ 53 →
    b + Z.of_nat p < Task.id task.
Proof.
  induction l as [|x l IH]; intros b p task Hlow Hsorted Hp Hbound; [done|].
  apply Forall_cons in Hlow as [Hx Hlow].
  unfold ids in Hsorted. rewrite fmap_cons in Hsorted.
  apply StronglySorted_cons in Hsorted as [Hall Hsorted].
  destruct p as [|p]; simpl in Hp.
  - injection Hp as <-. lia.
  - assert (Forall (λ task, b + 1 < Task.id task ∨ 2 ^ 53 ≤ Task.id task) l)
      as Hlow'.
    { rewrite Forall_forall in Hall. rewrite Forall_forall. intros y Hy.
      assert (lt_or_saturated (Task.id x) (Task.id y)) as [Hlt|Hsat]
        by (apply Hall, list_elem_of_fmap; eauto).
      - lia.
      - by right. }
    pose proof (IH (b + 1) p task Hlow' Hsorted Hp ltac:(lia)). lia.
Qed.

Lemma step_increasing_state ev s s' :
  counter_inv s ∧ increasing_state s → step ev s = Done s' →
  counter_inv s' ∧ increasing_state s'.
Proof.
  intros [Hinv [[Hpos Hsorted] Hslot]] Hstep.
  split; [by eapply step_counter_inv|].
  destruct ev as [|t|arg]; simpl in Hstep.
  - split.
    + eapply (Hydrate_tasks_from_slot nearly_increasing_ids);
        [split; constructor|exact Hslot|exact Hstep].
    + apply Hydrate_Done_inv in Hstep as (_ & -> & _). exact Hslot.
  - injection Hstep as <-.
    destruct Hinv as (Hcounter & Hint & Hmax).
    assert (nearly_increasing_ids (tasks (AddTask t s))) as Hnew.
    { split.
      - rewrite AddTask_tasks. apply Forall_app. split; [done|].
        constructor; [simpl; lia|constructor].
      - rewrite AddTask_ids. apply StronglySorted_app_2; [|done|].
        + intros i j (task & -> & Htask)%list_elem_of_fmap
            ->%list_elem_of_singleton.
          destruct (decide (nextId s < 2 ^ 53)) as [Hsafe|Hsat];
            [left|right; lia].
          pose proof (counter_inv_ids_below s
                        (conj Hcounter (conj Hint Hmax)) Hsafe) as Hbelow.
          unfold ids_below_counter in Hbelow. rewrite Forall_forall in Hbelow.
          by apply Hbelow.
        + repeat constructor. }
    split; done.
  - injection Hstep as <-.
    assert (nearly_increasing_ids (tasks (DeleteTask arg s))) as Hnew.
    { split.
      - rewrite Forall_forall in Hpos. rewrite Forall_forall.
        intros task Htask. apply Hpos.
        eapply elem_of_sublist; [exact Htask|apply handleDelete_sublist].
      - eapply StronglySorted_sublist;
          [apply handleDelete_ids_sublist|exact Hsorted]. }
    split; done.
Qed.

Lemma run_increasing_state slot evs s :
  slot_array increasing_ids slot →
  run evs (initial slot) = Done s →
  counter_inv s ∧ increasing_state s.
Proof.
  intros Hslot Hrun.
  apply (run_invariant (λ s, counter_inv s ∧ increasing_state s)
           step_increasing_state evs (initial slot) s); [|exact Hrun].
  split; [apply initial_counter_inv|]. split; [split; constructor|].
  eapply slot_array_impl; [apply increasing_ids_nearly|exact Hslot].
Qed.

Lemma increasing_state_position s p task :
  increasing_state s → tasks s !! p = Some task →
  Z.of_nat p < 2 ^ 53 → Z.of_nat p < Task.id task.
Proof.
  intros [[Hpos Hsorted] _] Hp Hbound.
  pose proof (nearly_increasing_position (tasks s) 0 p task) as Hlt.
  rewrite !Z.add_0_l in Hlt. apply Hlt; [|done..].
  eapply Forall_impl; [exact Hpos|]. intros x Hx. by left.
Qed.

Lemma increasing_ids_position l :
  ∀ b p task,
    Forall (λ task, b < Task.id task) l →
    StronglySorted Z.lt (ids l) →
    l !! p = Some task →
    b + Z.of_nat p < Task.id task.
Proof.
  induction l as [|x l IH]; intros b p task Hlow Hsorted Hp; [done|].
  apply Forall_cons in Hlow as [Hx Hlow].
  unfold ids in Hsorted. rewrite fmap_cons in Hsorted.
  apply StronglySorted_cons in Hsorted as [Hall Hsorted].
  destruct p as [|p]; simpl in Hp.
  - injection Hp as <-. lia.
  - assert (Forall (λ task, Task.id x < Task.id task) l) as Hlow'.
    { rewrite Forall_forall in Hall. rewrite Forall_forall. intros y Hy.
      apply Hall. apply list_elem_of_fmap. eauto. }
    pose proof (IH (Task.id x) p task Hlow' Hsorted Hp). lia.
Qed.

(** X8.  When the page is mounted over a slot that is missing, or holds
    something other than an array, or holds an array with positive
    increasing identifiers, then in every state reached with the counter
    below 2^53 the list has positive, strictly increasing identifiers: list
    order is identifier order, and the record at position [p] has an
    identifier above [p]. *)
Theorem ids_stay_increasing slot evs s :
  slot_array increasing_ids slot →
  run evs (initial slot) = Done s →
  nextId s < 2 ^ 53 →
  Forall (λ task, 0 < Task.id task) (tasks s)
  ∧ StronglySorted Z.lt (ids (tasks s))
  ∧ (∀ p task, tasks s !! p = Some task → Z.of_nat p < Task.id task).
Proof.
  intros Hslot Hrun Hsafe.
  destruct (run_increasing_state slot evs s Hslot Hrun) as [Hinv Hinc].
  pose proof Hinc as [[Hpos Hsorted] _].
  pose proof (counter_inv_ids_below s Hinv Hsafe) as Hbelow.
  pose proof (ids_below_counter_all_safe s Hbelow Hsafe) as Hallsafe.
  assert (StronglySorted Z.lt (ids (tasks s))) as Hstrict.
  { eapply (StronglySorted_weaken lt_or_saturated Z.lt (λ i, i < 2 ^ 53));
      [|exact Hallsafe|exact Hsorted].
    intros x y Hy [Hlt|Hsat]; [done|lia]. }
  split_and!; [done|done|].
  intros p task Hp.
  pose proof (increasing_ids_position (tasks s) 0 p task Hpos Hstrict Hp).
  lia.
Qed.

Lemma ids_stay_increasing_witness :
  let evs := [EvHydrate; EvAdd "A"; EvAdd "B"; EvAdd "C"; EvDelete 0; EvHydrate; EvAdd "D"] in
  ∃ s, run evs (initial None) = Done s
       ∧ ids (tasks s) = [2; 3; 4]
       ∧ StronglySorted Z.lt (ids (tasks s)).
Proof.
  intros evs. eexists. split; [reflexivity|]. split; [reflexivity|].
  apply (ids_stay_increasing None evs);
    [exact I | reflexivity | change (5 < 2 ^ 53); lia].
Defined.

(** ** The rendered list *)

Lemma TaskList_lookup Number_toString l onDelete row r :
  TaskList Number_toString l onDelete !! row = Some r →
  ∃ task, l !! row = Some task
          ∧ key r = Task.id task
          ∧ label r = Task.title task
          ∧ onClick r = onDelete (Task.id task).
Proof.
  unfold TaskList. rewrite list_lookup_fmap.
  destruct (l !! row) as [task|]; simpl; [|discriminate].
  intros [= <-]. by exists task.
Qed.

Lemma delete_beyond {A} (l : list A) n : (length l ≤ n)%nat → delete n l = l.
Proof.
  intros Hn. rewrite delete_take_drop, take_ge, drop_ge by lia.
  apply app_nil_r.
Qed.

Lemma take_delete_later {A} (l : list A) n k :
  (n ≤ k)%nat → take n (delete k l) = take n l.
Proof.
  intros Hnk. destruct (decide (k < length l)%nat) as [Hk|Hk].
  - rewrite delete_take_drop, take_app_le by (rewrite length_take; lia).
    rewrite take_take. f_equal. lia.
  - by rewrite delete_beyond by lia.
Qed.

(** X9.  On a board whose slot was missing, not an array, or an array with
    positive increasing identifiers when the page was mounted, the Delete
    button of a row never removes that row: the clicked record and
    everything above it stay, and what goes, if anything, is a record
    further down.  (Rows are array positions, far below 2^53.) *)
Theorem Delete_button_keeps_its_row Number_toString slot evs s row r :
  slot_array increasing_ids slot →
  run evs (initial slot) = Done s →
  Z.of_nat row < 2 ^ 53 →
  rows (Home Number_toString s) !! row = Some r →
  ∃ task,
    tasks s !! row = Some task
    ∧ key r = Task.id task
    ∧ tasks (onClick r s) !! row = Some task
    ∧ take (S row) (tasks (onClick r s)) = take (S row) (tasks s)
    ∧ tasks (onClick r s) = delete (Z.to_nat (Task.id task)) (tasks s)
    ∧ (row < Z.to_nat (Task.id task))%nat.
Proof.
  intros Hslot Hrun Hindex Hrow.
  apply TaskList_lookup in Hrow as (task & Htask & Hkey & _ & Hclick).
  destruct (run_increasing_state slot evs s Hslot Hrun) as [_ Hinc].
  pose proof (increasing_state_position s row task Hinc Htask Hindex) as Hlt.
  assert (Hdel : tasks (onClick r s) = delete (Z.to_nat (Task.id task)) (tasks s)).
  { rewrite Hclick. apply handleDelete_in_range. lia. }
  exists task. split_and!; [done|done| | |done|lia].
  - rewrite Hdel, list_lookup_delete_lt by lia. exact Htask.
  - rewrite Hdel. apply take_delete_later. lia.
Qed.

Lemma Delete_button_keeps_its_row_witness :
  ∃ task, tasks board_ABC !! 0%nat = Some task
          ∧ tasks (click_delete 0 board_ABC) !! 0%nat = Some task.
Proof.
  destruct (Delete_button_keeps_its_row pretty None
              [EvAdd "A"; EvAdd "B"; EvAdd "C"] board_ABC 0%nat
              (mkRow 1 "/task/1" "A"
                 (TaskList_onClick handleDelete (Task.mk 1 "A" ""))))
    as (task & Htask & _ & Hkept & _).
  - exact I.
  - reflexivity.
  - change (0 < 2 ^ 53). lia.
  - reflexivity.
  - exists task. split; [exact Htask | exact Hkept].
Defined.

(** X10.  On a board filled by Add alone from an empty slot, with at most
    2^53 records, the Delete button of row [row] removes the row right below
    it, and the button of the last row removes nothing. *)
Theorem Delete_button_on_fresh_board titles row :
  Z.of_nat (length titles) ≤ 2 ^ 53 →
  tasks (click_delete row (add_all titles (initial None)))
  = delete (S row) (tasks (add_all titles (initial None))).
Proof.
  intros Hlen. unfold click_delete.
  destruct (tasks (add_all titles (initial None)) !! row) as [task|] eqn:Hrow.
  - unfold TaskList_onClick.
    pose proof Hrow as Hid.
    rewrite add_all_tasks in Hid by (simpl; lia). simpl in Hid.
    apply created_from_lookup in Hid.
    rewrite handleDelete_in_range by lia.
    f_equal. lia.
  - apply lookup_ge_None in Hrow. by rewrite delete_beyond by lia.
Qed.

Lemma Delete_button_on_fresh_board_witness :
  tasks (click_delete 0 (add_all ["A"; "B"; "C"] (initial None)))
  = [Task.mk 1 "A" ""; Task.mk 3 "C" ""].
Proof.
  rewrite (Delete_button_on_fresh_board ["A"; "B"; "C"] 0).
  - reflexivity.
  - change (3 ≤ 2 ^ 53). lia.
Defined.

(** X11.  Unless the slot the page was mounted over holds an array with
    repeated identifiers, in every state reached with the counter below
    2^53 the rendered rows have pairwise distinct React keys; each row's
    label is its record's title and its link is "/task/" followed by the
    text of its key, so the links are pairwise distinct as well whenever
    the conversion of numbers to text is injective. *)
Theorem rendered_keys_and_links_distinct Number_toString slot evs s :
  slot_array unique_ids slot →
  run evs (initial slot) = Done s →
  nextId s < 2 ^ 53 →
  NoDup (key <$> rows (Home Number_toString s))
  ∧ label <$> rows (Home Number_toString s) = Task.title <$> tasks s
  ∧ Forall (λ r, href r = String.app "/task/" (Number_toString (key r)))
           (rows (Home Number_toString s))
  ∧ (Inj (=) (=) Number_toString →
     NoDup (href <$> rows (Home Number_toString s))).
Proof.
  intros Hslot Hrun Hsafe.
  destruct (run_unique_state slot evs s Hslot Hrun) as [Hinv Huniq].
  pose proof (unique_state_NoDup s Hinv Huniq Hsafe) as Hnodup.
  unfold ids in Hnodup.
  simpl. unfold TaskList. split_and!.
  - by rewrite <- list_fmap_compose.
  - by rewrite <- list_fmap_compose.
  - apply Forall_fmap, Forall_true. done.
  - intros Hinj. rewrite <- list_fmap_compose.
    change (NoDup ((λ i : Z, String.app "/task/" (Number_toString i))
                     ∘ Task.id <$> tasks s)).
    rewrite list_fmap_compose. apply NoDup_fmap_2; [|done].
    intros i j Heq. by apply (inj Number_toString), (inj (String.app "/task/")).
Qed.

Lemma rendered_keys_and_links_distinct_witness :
  href <$> rows (Home pretty board_AB) = ["/task/1"; "/task/2"]
  ∧ NoDup (href <$> rows (Home pretty board_AB)).
Proof.
  split; [reflexivity|].
  destruct (rendered_keys_and_links_distinct pretty None
              [EvAdd "A"; EvAdd "B"] board_AB)
    as (_ & _ & _ & Hlinks).
  - exact I.
  - reflexivity.
  - change (3 < 2 ^ 53). lia.
  - apply Hlinks. apply _.
Defined.
